(** * Locale routing and content-query glue of typesafe-i18n-hygraph-nextjs

    A shallow embedding of [i18n.ts], [middleware.ts] and [hygraphClient.ts].

    JavaScript strings are modelled by [string]; every string the program
    itself builds (locale identifiers, the separators ["_"], ["-"], ["/"])
    is ASCII, where code units and characters coincide. *)

From Stdlib Require Import String Ascii List Bool Arith Lia.
Import ListNotations.
Open Scope string_scope.

(** ** The JavaScript string and array primitives behind the program's calls *)

Module JS.

(** [s.startsWith(searchString)] *)
Definition startsWith (s searchString : string) : bool :=
  String.prefix searchString s.

(** [s.slice(n)] for [0 <= n]: what is left of [s] after a match of
    length [n] at its start. *)
Fixpoint slice (n : nat) (s : string) : string :=
  match n, s with
  | 0, _ => s
  | S _, EmptyString => EmptyString
  | S n', String _ s' => slice n' s'
  end.

(** [s.replace(pattern, replacement)] with a string [pattern]: only the
    first (leftmost) occurrence is replaced.  [replacement] is taken
    literally, which is what JavaScript does when it holds no ["$"]; the
    program's replacements are ["-"] and ["_"]. *)
Fixpoint replace (s pattern replacement : string) : string :=
  if startsWith s pattern
  then replacement ++ slice (String.length pattern) s
  else match s with
       | EmptyString => EmptyString
       | String c s' => String c (replace s' pattern replacement)
       end.

(** [xs.every(p)] *)
Definition every {A} (p : A -> bool) (xs : list A) : bool := forallb p xs.

End JS.

(** Number of occurrences of the character [c] in [s]. *)
Fixpoint occurrences (c : ascii) (s : string) : nat :=
  match s with
  | EmptyString => 0
  | String a s' => (if Ascii.eqb a c then 1 else 0) + occurrences c s'
  end.

Definition underscore : ascii := "_"%char.
Definition hyphen : ascii := "-"%char.

(** ** i18n.ts *)

Module I18n.

(** The type-level [Replace<T, S, D, A>]:
    [T extends `${infer L}${S}${infer R}` ? Replace<R, S, D, `${A}${L}${D}`> : `${A}${T}`].
    [infer_LR T S] is the match of [T] against [`${infer L}${S}${infer R}`],
    which binds [L] to the shortest possible prefix. *)
Fixpoint infer_LR (T S : string) : option (string * string) :=
  if JS.startsWith T S
  then Some (EmptyString, JS.slice (String.length S) T)
  else match T with
       | EmptyString => None
       | String c T' =>
           match infer_LR T' S with
           | Some (L, R) => Some (String c L, R)
           | None => None
           end
       end.

(** The conditional type recurses on [R]; [fuel] bounds the number of
    instantiations. *)
Fixpoint Replace_rec (fuel : nat) (T S D A : string) : string :=
  match fuel with
  | 0 => A ++ T
  | Datatypes.S fuel' =>
      match infer_LR T S with
      | Some (L, R) => Replace_rec fuel' R S D (A ++ L ++ D)
      | None => A ++ T
      end
  end.

Definition Replace (T S D : string) : string :=
  Replace_rec (Datatypes.S (String.length T)) T S D EmptyString.

(** [type Locale = Replace<HygraphLocale, "_", "-">]: over an enum with
    values, a union with one member per value, kept as the list of its
    members.  Over an enum without values the template literal type
    [`${HygraphLocaleEnum}`] is [string], and so is [Locale]: see
    [is_Locale]. *)
Definition Locale (HygraphLocaleEnum : list string) : list string :=
  map (fun T => Replace T "_" "-") HygraphLocaleEnum.

Record t : Type := mk { locales : list string; defaultLocale : string }.

(** [(hygraphLocale) => hygraphLocale.replace("_", "-")] *)
Definition toStandard (hygraphLocale : string) : string :=
  JS.replace hygraphLocale "_" "-".

(** The module body: [locales], [defaultLocale] and the exported [i18n].
    [HygraphLocaleEnum] stands for [Object.values] of the enum generated
    into [./gql/graphql], which is produced by the code generator. *)
Definition i18n (HygraphLocaleEnum : list string) : t :=
  {| locales := map toStandard HygraphLocaleEnum;
     defaultLocale := "en" |}.

(** Whether the string literal [s] is assignable to the type [Locale]:
    every literal is when the enum has no value ([Locale] is [string]
    then), and otherwise the members of the union are. *)
Definition is_Locale (HygraphLocaleEnum : list string) (s : string) : bool :=
  match HygraphLocaleEnum with
  | [] => true
  | _ :: _ => existsb (String.eqb s) (Locale HygraphLocaleEnum)
  end.

(** [const defaultLocale: Locale = "en"]: the annotation is accepted by the
    type checker when the literal is assignable to [Locale]. *)
Definition defaultLocale_typechecks (HygraphLocaleEnum : list string) : bool :=
  is_Locale HygraphLocaleEnum "en".

(** Building the module: the type check of the annotation, then the
    evaluation of the module body.  [None] is a rejected build. *)
Definition build (HygraphLocaleEnum : list string) : option t :=
  if defaultLocale_typechecks HygraphLocaleEnum
  then Some (i18n HygraphLocaleEnum)
  else None.

End I18n.

(** ** middleware.ts *)

Module Middleware.

(** [request.nextUrl]: the parsed URL of the request.  [pathname] is the
    path component alone; the query string lives in [search]. *)
Record NextURL : Type := { pathname : string; search : string }.

Record NextRequest : Type :=
  { url : string;
    nextUrl : NextURL;
    headers : list (string * string) }.

(** [new URL(input, base)], kept as the constructor's two arguments. *)
Record URL : Type := new_URL { input : string; base : string }.

(** [NextResponse.redirect(url)] *)
Inductive NextResponse : Type := redirect (location : URL).

(** A [Record<string, string>], kept as the map of its own properties:
    [o k] is the value of the own property [k] of [o], if [o] has one.
    What such an object inherits from [Object.prototype] is the same for
    every one of them and is not recorded. *)
Definition HeadersObject : Type := string -> option string.

(** [{}]: no own property. *)
Definition empty_object : HeadersObject := fun _ => None.

(** [{ ...headersObject, [key]: value }] *)
Definition spread_set (headersObject : HeadersObject) (key value : string)
  : HeadersObject :=
  fun k => if String.eqb k key then Some value else headersObject k.

(** [[...headers.entries()].reduce((headersObject, [key, value]) => ..., {})] *)
Definition mapHeadersToObject (headers : list (string * string))
  : HeadersObject :=
  fold_left (fun headersObject kv => spread_set headersObject (fst kv) (snd kv))
            headers empty_object.

(** The calls into the two negotiation libraries, logged in call order. *)
Inductive LibCall : Type := Negotiator_languages | localematcher_match.

(** How a call ends: it returns a value, or it throws.  Nothing in
    [middleware.ts] catches, so an exception thrown by a library ends the
    function that called it. *)
Inductive Completion (A : Type) : Type :=
| Normal (value : A)
| Throw (exception : string).

Arguments Normal {A} _.
Arguments Throw {A} _.

Definition M (A : Type) : Type := (Completion A * list LibCall)%type.

Definition ret {A} (a : A) : M A := (Normal a, []).

Definition bind {A B} (m : M A) (k : A -> M B) : M B :=
  let (completion, log1) := m in
  match completion with
  | Normal a => let (b, log2) := k a in (b, (log1 ++ log2)%list)
  | Throw exception => (Throw exception, log1)
  end.

Definition call {A} (c : LibCall) (result : Completion A) : M A :=
  (result, [c]).

Notation "x <- m ;; k" := (bind m (fun x => k))
  (at level 61, m at next level, right associativity).

(** [`/${locale}/${pathname}`], the first argument of [new URL] in
    [middleware]. *)
Definition buildRedirectTarget (pathname locale : string) : string :=
  "/" ++ locale ++ "/" ++ pathname.

Section WithLibraries.

(** [new Negotiator({ headers }).languages()] of the package
    [negotiator] and [match] of [@formatjs/intl-localematcher].  Either
    call may throw: [match] does on a requested tag that is not a
    well-formed locale identifier. *)
Variable languages : HeadersObject -> Completion (list string).
Variable match_ :
  list string -> list string -> string -> Completion string.

(** The imported [i18n]. *)
Variable i18n : I18n.t.

Definition getLocale (request : NextRequest) : M string :=
  let headers := mapHeadersToObject (headers request) in
  languages <- call Negotiator_languages (languages headers) ;;
  call localematcher_match
       (match_ languages (I18n.locales i18n) (I18n.defaultLocale i18n)).

(** [i18n.locales.every((locale) =>
      !pathname.startsWith(`/${locale}/`) && pathname !== `/${locale}`)] *)
Definition pathnameIsMissingLocale (pathname : string) : bool :=
  JS.every
    (fun locale =>
       negb (JS.startsWith pathname ("/" ++ locale ++ "/"))
       && negb (String.eqb pathname ("/" ++ locale)))
    (I18n.locales i18n).

(** The result [Normal None] is the bare [return;]: the request
    continues. *)
Definition middleware (request : NextRequest) : M (option NextResponse) :=
  let pathname := pathname (nextUrl request) in
  if negb (pathnameIsMissingLocale pathname) then ret None
  else
    locale <- getLocale request ;;
    ret (Some (redirect
                 (new_URL (buildRedirectTarget pathname locale)
                          (url request)))).

End WithLibraries.

(** The specification's [hasLocalePrefix(path, registry)] is the negation
    of [pathnameIsMissingLocale]. *)
Definition hasLocalePrefix (path : string) (registry : I18n.t) : bool :=
  negb (pathnameIsMissingLocale registry path).

End Middleware.

(** ** hygraphClient.ts *)

Module HygraphClient.

(** The [getBlogposts] document. *)
Definition getBlogposts_document : string :=
  "query getBlogposts($locales: [Locale!] = [en]) { blogposts(locales: $locales) { id title content { html } } }".

(** The variables object [{ locales: [locale] }]. *)
Record Variables : Type := { locales : list string }.

Section WithEnvironment.

(** [RequestInit] of the fetch API and
    [process.env.HYGRAPH_CONTENT_API_URL]. *)
Variable RequestInit : Type.
Variable HYGRAPH_CONTENT_API_URL : string.

(** The outgoing call [hygraphClient(init).request(document, variables)]:
    the client's endpoint, the [init] merged into every fetch, the
    document and the variables. *)
Record Request : Type :=
  { endpoint : string;
    fetch_init : option RequestInit;
    document : string;
    variables : Variables }.

Record Client : Type :=
  { getBlogposts : option RequestInit -> Request }.

(** [inputLocale.replace("-", "_")] *)
Definition toSource (inputLocale : string) : string :=
  JS.replace inputLocale "-" "_".

Definition useHygraphClient (inputLocale : string) : Client :=
  let locale := toSource inputLocale in
  let makeRequest (document : string) (init : option RequestInit) :=
    {| endpoint := HYGRAPH_CONTENT_API_URL;
       fetch_init := init;
       document := document;
       variables := {| locales := [locale] |} |} in
  {| getBlogposts := makeRequest getBlogposts_document |}.

End WithEnvironment.

Arguments endpoint {RequestInit} _.
Arguments fetch_init {RequestInit} _.
Arguments document {RequestInit} _.
Arguments variables {RequestInit} _.
Arguments getBlogposts {RequestInit} _ _.
Arguments useHygraphClient {RequestInit} _ _.

End HygraphClient.

(** ** app/[lang]/page.tsx *)

Module Page.

(** What the page returns: [<div>{children}</div>]. *)
Inductive Element : Type := div (children : string).

Section WithContentSource.

Variable RequestInit : Type.
Variable HYGRAPH_CONTENT_API_URL : string.

(** The [blogposts] of the answer and [JSON.stringify] on them. *)
Variable Blogposts : Type.
Variable JSON_stringify : Blogposts -> string.

(** The asynchronous page: the request it awaits and what it renders from
    the [blogposts] of the answer. *)
Record Rendering : Type :=
  { awaited : HygraphClient.Request RequestInit;
    render : Blogposts -> Element }.

(** [client.getBlogposts()] is called without [init]. *)
Definition IndexPage (lang : string) : Rendering :=
  let client := HygraphClient.useHygraphClient HYGRAPH_CONTENT_API_URL lang in
  {| awaited := HygraphClient.getBlogposts client None;
     render := fun blogposts => div (JSON_stringify blogposts) |}.

End WithContentSource.

Arguments awaited {RequestInit Blogposts} _.
Arguments render {RequestInit Blogposts} _ _.
Arguments IndexPage {RequestInit} _ {Blogposts} _ _.

End Page.

(** ** Notions used in the statements *)

Definition slash : ascii := "/"%char.

(** The reducer of [mapHeadersToObject]:
    [(headersObject, [key, value]) => ({ ...headersObject, [key]: value })]. *)
Definition spread_entry (headersObject : Middleware.HeadersObject)
           (kv : string * string) : Middleware.HeadersObject :=
  Middleware.spread_set headersObject (fst kv) (snd kv).

(** What [Replace<T, c, D>] computes, by structural recursion on [T]. *)
Fixpoint subst_all (c : ascii) (D T : string) : string :=
  match T with
  | EmptyString => EmptyString
  | String a T' =>
      if Ascii.eqb a c then D ++ subst_all c D T'
      else String a (subst_all c D T')
  end.

(** [path] carries the segment of a registered locale: it starts with
    ["/<locale>/"] or is exactly ["/<locale>"]. *)
Definition carries_locale (registry : I18n.t) (path : string) : Prop :=
  exists locale,
    In locale (I18n.locales registry)
    /\ ((exists rest, path = "/" ++ locale ++ "/" ++ rest)
        \/ path = "/" ++ locale).

(** The value of the last entry of [headers] that is named [k]. *)
Fixpoint last_value (headers : list (string * string)) (k : string)
  : option string :=
  match headers with
  | [] => None
  | (k', v) :: rest =>
      match last_value rest k with
      | Some v' => Some v'
      | None => if String.eqb k k' then Some v else None
      end
  end.

(** The registry of the demonstration project: the enum values ["en"] and
    ["pl_PL"]. *)
Definition demo_registry : I18n.t := I18n.i18n ["en"; "pl_PL"].

Definition demo_request : Middleware.NextRequest :=
  {| Middleware.url := "http://localhost:3000/about?x=1";
     Middleware.nextUrl := {| Middleware.pathname := "/about"; Middleware.search := "?x=1" |};
     Middleware.headers := [("accept-language", "pl-PL,en;q=0.5")] |}.

(** [request] with another query string. *)
Definition with_search (request : Middleware.NextRequest) (search' : string) : Middleware.NextRequest :=
  {| Middleware.url := Middleware.url request;
     Middleware.nextUrl := {| Middleware.pathname := Middleware.pathname (Middleware.nextUrl request); Middleware.search := search' |};
     Middleware.headers := Middleware.headers request |}.

(** * Properties *)

Example toStandard_pl : I18n.toStandard "pl_PL" = "pl-PL".
Proof. reflexivity. Qed.

Example Replace_zh : I18n.Replace "zh_Hant_TW" "_" "-" = "zh-Hant-TW".
Proof. reflexivity. Qed.

Example build_demo :
  I18n.build ["en"; "pl_PL"] = Some (I18n.mk ["en"; "pl-PL"] "en").
Proof. reflexivity. Qed.

(** ** Strings *)

Section StringFacts.

Lemma append_assoc (a b c : string) : (a ++ b) ++ c = a ++ (b ++ c).
Proof. induction a as [|x a IH]; simpl; [reflexivity | now rewrite IH]. Qed.

Lemma append_nil_r (a : string) : a ++ "" = a.
Proof. induction a as [|x a IH]; simpl; [reflexivity | now rewrite IH]. Qed.

Lemma prefix_append (p r : string) : String.prefix p (p ++ r) = true.
Proof.
  induction p as [|x p IH]; simpl; [now destruct r |].
  destruct (ascii_dec x x); [exact IH | contradiction].
Qed.

Lemma prefix_split (p s : string) :
  String.prefix p s = true -> exists r, s = p ++ r.
Proof.
  revert s; induction p as [|x p IH]; intros s H.
  - now exists s.
  - destruct s as [|y s]; simpl in H; [discriminate |].
    destruct (ascii_dec x y) as [->|]; [| discriminate].
    destruct (IH _ H) as [r ->]. now exists r.
Qed.

Lemma startsWith_iff (s p : string) :
  JS.startsWith s p = true <-> exists r, s = p ++ r.
Proof.
  unfold JS.startsWith; split.
  - apply prefix_split.
  - intros [r ->]; apply prefix_append.
Qed.

Lemma occurrences_append (c : ascii) (a b : string) :
  occurrences c (a ++ b) = occurrences c a + occurrences c b.
Proof. induction a as [|x a IH]; simpl; [reflexivity | rewrite IH; lia]. Qed.

Lemma length_append (a b : string) :
  String.length (a ++ b) = String.length a + String.length b.
Proof. induction a as [|x a IH]; simpl; [reflexivity | now rewrite IH]. Qed.

End StringFacts.

(** ** Replacing one character by another: the two conversions *)

Section ReplaceChar.

Variables c d : ascii.

Lemma replace_char_cons (a : ascii) (s : string) :
  JS.replace (String a s) (String c "") (String d "")
  = if Ascii.eqb a c then String d s
    else String a (JS.replace s (String c "") (String d "")).
Proof.
  simpl.
  destruct (ascii_dec c a) as [->|n].
  - rewrite Ascii.eqb_refl. now destruct s.
  - destruct (Ascii.eqb_spec a c) as [->|_]; [contradiction | reflexivity].
Qed.

Lemma replace_char_nil : JS.replace "" (String c "") (String d "") = "".
Proof. reflexivity. Qed.

(** A string without [c] is left alone. *)
Lemma replace_char_absent (s : string) :
  occurrences c s = 0 -> JS.replace s (String c "") (String d "") = s.
Proof.
  induction s as [|a s IH]; intros H; [reflexivity |].
  rewrite replace_char_cons. simpl in H.
  destruct (Ascii.eqb a c); [discriminate |].
  now rewrite IH.
Qed.

(** Exactly one occurrence of [c] disappears. *)
Lemma replace_char_occurrences_pat (s : string) :
  c <> d ->
  occurrences c (JS.replace s (String c "") (String d "")) = pred (occurrences c s).
Proof.
  intros Hcd; induction s as [|a s IH]; [reflexivity |].
  rewrite replace_char_cons. simpl.
  destruct (Ascii.eqb_spec a c) as [->|Hac]; simpl.
  - destruct (Ascii.eqb_spec d c) as [->|_]; [contradiction | reflexivity].
  - destruct (Ascii.eqb_spec a c); [contradiction |]. exact IH.
Qed.

(** ... and one occurrence of [d] appears in its place. *)
Lemma replace_char_occurrences_rep (s : string) :
  c <> d ->
  occurrences d (JS.replace s (String c "") (String d ""))
  = occurrences d s + match occurrences c s with 0 => 0 | S _ => 1 end.
Proof.
  intros Hcd; induction s as [|a s IH]; [reflexivity |].
  rewrite replace_char_cons. simpl.
  destruct (Ascii.eqb_spec a c) as [->|Hac]; simpl.
  - rewrite Ascii.eqb_refl.
    destruct (Ascii.eqb_spec c d); [contradiction | lia].
  - rewrite IH. lia.
Qed.

End ReplaceChar.

Section RoundTrip.

Variables c d : ascii.

(** Replacing the first [c] by [d] and then the first [d] by [c] restores
    a string that held no [d] to begin with. *)
Lemma replace_char_round_trip (s : string) :
  occurrences d s = 0 ->
  JS.replace (JS.replace s (String c "") (String d "")) (String d "") (String c "")
  = s.
Proof.
  induction s as [|a s IH]; intros H; [reflexivity |].
  rewrite replace_char_cons. simpl in H.
  destruct (Ascii.eqb_spec a c) as [->|Hac].
  - rewrite replace_char_cons, Ascii.eqb_refl. reflexivity.
  - rewrite replace_char_cons.
    destruct (Ascii.eqb_spec a d) as [->|_]; [discriminate |].
    rewrite IH; [reflexivity | exact H].
Qed.

End RoundTrip.

Lemma underscore_neq_hyphen : underscore <> hyphen.
Proof. discriminate. Qed.

Lemma hyphen_neq_underscore : hyphen <> underscore.
Proof. discriminate. Qed.

(** ** The type-level [Replace] replaces every occurrence *)


Section TypeLevelReplace.

Variable c : ascii.
Variable D : string.

Lemma infer_LR_cons (a : ascii) (T : string) :
  I18n.infer_LR (String a T) (String c "")
  = if Ascii.eqb a c then Some ("", T)
    else match I18n.infer_LR T (String c "") with
         | Some (L, R) => Some (String a L, R)
         | None => None
         end.
Proof.
  simpl.
  destruct (ascii_dec c a) as [->|n].
  - rewrite Ascii.eqb_refl. now destruct T.
  - destruct (Ascii.eqb_spec a c) as [->|_]; [contradiction | reflexivity].
Qed.

Lemma infer_LR_None (T : string) :
  I18n.infer_LR T (String c "") = None -> occurrences c T = 0.
Proof.
  induction T as [|a T IH]; [reflexivity |].
  rewrite infer_LR_cons. simpl.
  destruct (Ascii.eqb a c); [discriminate |].
  destruct (I18n.infer_LR T (String c "")) as [[L R]|]; [discriminate |].
  intros _. now apply IH.
Qed.

Lemma infer_LR_Some (T L R : string) :
  I18n.infer_LR T (String c "") = Some (L, R) ->
  T = L ++ String c R /\ occurrences c L = 0.
Proof.
  revert L; induction T as [|a T IH]; intros L; [discriminate |].
  rewrite infer_LR_cons.
  destruct (Ascii.eqb_spec a c) as [->|Hac].
  - intros [= <- <-]. now split.
  - destruct (I18n.infer_LR T (String c "")) as [[L' R']|]; [| discriminate].
    intros [= <- <-]. destruct (IH L' eq_refl) as [-> HL].
    split; [reflexivity |]. simpl.
    destruct (Ascii.eqb_spec a c); [contradiction | exact HL].
Qed.

Lemma subst_all_absent (T : string) :
  occurrences c T = 0 -> subst_all c D T = T.
Proof.
  induction T as [|a T IH]; intros H; [reflexivity |]. simpl in *.
  destruct (Ascii.eqb a c); [discriminate |]. now rewrite IH.
Qed.

Lemma subst_all_split (L R : string) :
  occurrences c L = 0 ->
  subst_all c D (L ++ String c R) = L ++ D ++ subst_all c D R.
Proof.
  induction L as [|a L IH]; intros H; simpl in *.
  - now rewrite Ascii.eqb_refl.
  - destruct (Ascii.eqb a c); [discriminate |]. now rewrite IH.
Qed.

(** With more fuel than separators the recursion reaches its base case. *)
Lemma Replace_rec_spec (fuel : nat) :
  forall T A, occurrences c T < fuel ->
              I18n.Replace_rec fuel T (String c "") D A = A ++ subst_all c D T.
Proof.
  induction fuel as [|fuel IH]; intros T A Hlt; [lia |]. simpl.
  destruct (I18n.infer_LR T (String c "")) as [[L R]|] eqn:E.
  - destruct (infer_LR_Some _ _ _ E) as [-> HL].
    rewrite occurrences_append in Hlt. simpl in Hlt.
    rewrite Ascii.eqb_refl in Hlt.
    rewrite IH by lia.
    rewrite subst_all_split by exact HL.
    now rewrite !append_assoc.
  - now rewrite subst_all_absent by (now apply infer_LR_None).
Qed.

Lemma occurrences_le_length (T : string) :
  occurrences c T <= String.length T.
Proof.
  induction T as [|a T IH]; simpl; [lia |].
  destruct (Ascii.eqb a c); lia.
Qed.

Lemma Replace_spec (T : string) : I18n.Replace T (String c "") D = subst_all c D T.
Proof.
  unfold I18n.Replace. rewrite Replace_rec_spec; [reflexivity |].
  pose proof (occurrences_le_length T). lia.
Qed.

End TypeLevelReplace.

Lemma subst_all_char_occurrences (c d : ascii) (T : string) :
  c <> d ->
  occurrences d (subst_all c (String d "") T)
  = occurrences d T + occurrences c T.
Proof.
  intros Hcd; induction T as [|a T IH]; [reflexivity |]. simpl.
  destruct (Ascii.eqb_spec a c) as [->|Hac]; simpl.
  - rewrite Ascii.eqb_refl, IH.
    destruct (Ascii.eqb_spec c d); [contradiction | lia].
  - rewrite IH. lia.
Qed.

(** A literal that holds neither separator is reached only from itself,
    by the type-level conversion and by the run-time one alike. *)
Section PlainLiteral.

Variable l : string.
Hypothesis no_underscore : occurrences underscore l = 0.
Hypothesis no_hyphen : occurrences hyphen l = 0.

Lemma Replace_eq_plain (T : string) :
  I18n.Replace T "_" "-" = l <-> T = l.
Proof.
  change (I18n.Replace T (String underscore "") (String hyphen "") = l <-> T = l).
  rewrite Replace_spec. split.
  - intros H.
    pose proof (subst_all_char_occurrences underscore hyphen T
                  underscore_neq_hyphen) as Ho.
    rewrite H, no_hyphen in Ho.
    rewrite subst_all_absent in H by lia. exact H.
  - intros ->. now apply subst_all_absent.
Qed.

Lemma toStandard_eq_plain (T : string) :
  I18n.toStandard T = l <-> T = l.
Proof.
  unfold I18n.toStandard.
  change (JS.replace T (String underscore "") (String hyphen "") = l <-> T = l).
  split.
  - intros H.
    pose proof (replace_char_occurrences_rep underscore hyphen T
                  underscore_neq_hyphen) as Ho.
    rewrite H, no_hyphen in Ho.
    rewrite replace_char_absent in H; [exact H |].
    destruct (occurrences underscore T); [reflexivity | lia].
  - intros ->. now apply replace_char_absent.
Qed.

Lemma In_Locale_plain (enum : list string) :
  In l (I18n.Locale enum) <-> In l enum.
Proof.
  unfold I18n.Locale. rewrite in_map_iff. split.
  - intros [T [HT Hin]]. apply (proj1 (Replace_eq_plain T)) in HT. now subst T.
  - intros Hin. exists l. split; [now apply Replace_eq_plain | exact Hin].
Qed.

Lemma In_locales_plain (enum : list string) :
  In l (map I18n.toStandard enum) <-> In l enum.
Proof.
  rewrite in_map_iff. split.
  - intros [T [HT Hin]]. apply (proj1 (toStandard_eq_plain T)) in HT. now subst T.
  - intros Hin. exists l. split; [now apply toStandard_eq_plain | exact Hin].
Qed.

End PlainLiteral.

Lemma existsb_eqb_In (l : string) (ls : list string) :
  existsb (String.eqb l) ls = true <-> In l ls.
Proof.
  rewrite existsb_exists. split.
  - intros [x [Hin Heq]]. apply String.eqb_eq in Heq. now subst.
  - intros Hin. exists l. split; [exact Hin | apply String.eqb_refl].
Qed.

Lemma defaultLocale_typechecks_iff (enum : list string) :
  I18n.defaultLocale_typechecks enum = true <-> enum = [] \/ In "en" enum.
Proof.
  unfold I18n.defaultLocale_typechecks, I18n.is_Locale.
  destruct enum as [|e enum].
  - split; [now left | reflexivity].
  - rewrite existsb_eqb_In, (In_Locale_plain "en" eq_refl eq_refl). split.
    + now right.
    + intros [H | H]; [discriminate | exact H].
Qed.

(** ** The locale segment of a path *)


Section LocaleSegment.

Import Middleware.

Lemma segment_test_false (pathname locale : string) :
  negb (JS.startsWith pathname ("/" ++ locale ++ "/"))
  && negb (String.eqb pathname ("/" ++ locale)) = false
  <-> (exists rest, pathname = "/" ++ locale ++ "/" ++ rest)
      \/ pathname = "/" ++ locale.
Proof.
  rewrite andb_false_iff, !negb_false_iff, startsWith_iff, String.eqb_eq.
  split; (intros [[r Hr] | He]; [left; exists r | right; exact He]).
  - rewrite Hr. change ("/" ++ locale ++ "/") with (("/" ++ locale) ++ "/").
    now rewrite !append_assoc.
  - rewrite Hr. change ("/" ++ locale ++ "/") with (("/" ++ locale) ++ "/").
    now rewrite !append_assoc.
Qed.

Lemma pathnameIsMissingLocale_false (registry : I18n.t) (pathname : string) :
  pathnameIsMissingLocale registry pathname = false
  <-> carries_locale registry pathname.
Proof.
  unfold pathnameIsMissingLocale, carries_locale, JS.every.
  induction (I18n.locales registry) as [|l ls IH]; cbn [forallb In].
  - split; [discriminate | intros [? [[] _]]].
  - rewrite andb_false_iff, segment_test_false, IH. split.
    + intros [H | [l' [Hin H]]]; [exists l | exists l']; auto.
    + intros [l' [[<- | Hin] H]]; [left; exact H | right; exists l'; auto].
Qed.

Lemma pathnameIsMissingLocale_true (registry : I18n.t) (pathname : string) :
  pathnameIsMissingLocale registry pathname = true
  <-> ~ carries_locale registry pathname.
Proof.
  rewrite <- pathnameIsMissingLocale_false.
  destruct (pathnameIsMissingLocale registry pathname); split; congruence.
Qed.

Lemma hasLocalePrefix_iff (path : string) (registry : I18n.t) :
  hasLocalePrefix path registry = true <-> carries_locale registry path.
Proof.
  unfold hasLocalePrefix.
  now rewrite negb_true_iff, pathnameIsMissingLocale_false.
Qed.

Lemma carries_locale_dec (registry : I18n.t) (path : string) :
  carries_locale registry path \/ ~ carries_locale registry path.
Proof.
  destruct (pathnameIsMissingLocale registry path) eqn:E.
  - right. now apply pathnameIsMissingLocale_true.
  - left. now apply pathnameIsMissingLocale_false.
Qed.

(** The two branches of [middleware]. *)
Lemma middleware_pass_through languages match_ registry request :
  carries_locale registry (pathname (nextUrl request)) ->
  middleware languages match_ registry request = (Normal None, []).
Proof.
  intros H. apply pathnameIsMissingLocale_false in H.
  unfold middleware. now rewrite H.
Qed.

Lemma getLocale_run languages match_ registry request :
  getLocale languages match_ registry request
  = match languages (mapHeadersToObject (headers request)) with
    | Throw exception => (Throw exception, [Negotiator_languages])
    | Normal requested =>
        (match_ requested (I18n.locales registry) (I18n.defaultLocale registry),
         [Negotiator_languages; localematcher_match])
    end.
Proof.
  unfold getLocale, bind, call.
  now destruct (languages (mapHeadersToObject (headers request))).
Qed.

(** Without a registered segment the outcome is that of negotiation: its
    exception, or the redirect built from its locale. *)
Lemma middleware_negotiates languages match_ registry request :
  ~ carries_locale registry (pathname (nextUrl request)) ->
  middleware languages match_ registry request
  = (match fst (getLocale languages match_ registry request) with
     | Normal locale =>
         Normal (Some (redirect
                         (new_URL
                            (buildRedirectTarget (pathname (nextUrl request))
                                                 locale)
                            (url request))))
     | Throw exception => Throw exception
     end,
     snd (getLocale languages match_ registry request)).
Proof.
  intros H. apply pathnameIsMissingLocale_true in H.
  unfold middleware. rewrite H. simpl. unfold bind.
  destruct (getLocale languages match_ registry request) as [[locale | e] log];
    simpl; [now rewrite app_nil_r | reflexivity].
Qed.

(** A redirect is the answer only when the path lacks a registered segment
    and negotiation returned the locale the reference is built from. *)
Lemma middleware_redirect_inv languages match_ registry request location log :
  middleware languages match_ registry request
  = (Normal (Some (redirect location)), log) ->
  ~ carries_locale registry (pathname (nextUrl request))
  /\ exists locale,
      fst (getLocale languages match_ registry request) = Normal locale
      /\ location = new_URL (buildRedirectTarget (pathname (nextUrl request))
                                                 locale)
                            (url request).
Proof.
  intros Hmw.
  destruct (carries_locale_dec registry (pathname (nextUrl request))) as [Hc | Hn].
  - rewrite (middleware_pass_through languages match_ _ _ Hc) in Hmw.
    discriminate.
  - split; [exact Hn |].
    rewrite (middleware_negotiates languages match_ _ _ Hn) in Hmw.
    destruct (fst (getLocale languages match_ registry request))
      as [locale | e]; [| discriminate].
    injection Hmw as <- _. now exists locale.
Qed.

End LocaleSegment.

(** The object built from the headers holds, for each name, the value of
    the last entry with that name. *)
Lemma reduce_last_value (hs : list (string * string)) :
  forall (object : Middleware.HeadersObject) (k : string),
    fold_left spread_entry hs object k
    = match last_value hs k with
      | Some v => Some v
      | None => object k
      end.
Proof.
  induction hs as [|[k' v'] hs IH]; intros object k; [reflexivity |].
  simpl. rewrite IH.
  destruct (last_value hs k); [reflexivity |].
  unfold spread_entry, Middleware.spread_set. simpl.
  now destruct (String.eqb k k').
Qed.

Lemma mapHeadersToObject_last_value (headers : list (string * string))
      (k : string) :
  Middleware.mapHeadersToObject headers k = last_value headers k.
Proof.
  change (Middleware.mapHeadersToObject headers)
    with (fold_left spread_entry headers Middleware.empty_object).
  rewrite reduce_last_value. now destruct (last_value headers k).
Qed.

(** * The claims *)

Import Middleware.


(** C1, as stated, fails on the claim's own example: the template puts a
    ["/"] of its own between the locale and the path, and [middleware]
    feeds it the pathname without the query string. *)
Lemma redirect_target_counterexample :
  buildRedirectTarget "/about?x=1" "pl-PL" = "/pl-PL//about?x=1"
  /\ buildRedirectTarget "/about?x=1" "pl-PL" <> "/pl-PL/about?x=1"
  /\ fst (middleware (fun _ => Normal ["pl-PL"; "en"])
                     (fun _ _ _ => Normal "pl-PL")
                     demo_registry demo_request)
     = Normal (Some (redirect (new_URL "/pl-PL//about"
                                       "http://localhost:3000/about?x=1"))).
Proof. repeat split. discriminate. Qed.

(** C1 (amended): the redirect reference built by [middleware] is the
    locale segment ["/<locale>"] followed by the request's pathname taken
    verbatim, with at most one further ["/"] between the two and nothing
    re-encoded; it is built from the pathname alone, so the query string of
    the request has no part in what [middleware] returns. *)
Theorem redirect_target_shape :
  forall pathname locale : string,
    (exists sep,
        (sep = "" \/ sep = "/")
        /\ buildRedirectTarget pathname locale = "/" ++ locale ++ sep ++ pathname)
    /\ (forall languages match_ registry request search',
           middleware languages match_ registry (with_search request search')
           = middleware languages match_ registry request).
Proof.
  intros pathname locale. split.
  - exists "/". split; [now right | reflexivity].
  - reflexivity.
Qed.

(** Nothing in [getLocale] or [middleware] catches what the libraries
    throw. *)
Lemma getLocale_throws languages match_ registry request requested exception :
  languages (mapHeadersToObject (headers request)) = Normal requested ->
  match_ requested (I18n.locales registry) (I18n.defaultLocale registry)
  = Throw exception ->
  getLocale languages match_ registry request
  = (Throw exception, [Negotiator_languages; localematcher_match]).
Proof.
  intros Hl Hm. rewrite getLocale_run, Hl. now rewrite Hm.
Qed.

(** C2 (code defect): a request whose pathname carries no registered locale
    segment is not redirected when [match] throws on the languages that
    [languages()] returned: the exception leaves [middleware], after both
    library calls.  For a request without an [Accept-Language] header
    [languages()] returns [["*"]], on which [match] throws. *)
Theorem middleware_throws_when_match_throws :
  forall languages match_ registry request requested exception,
    ~ carries_locale registry (pathname (nextUrl request)) ->
    languages (mapHeadersToObject (headers request)) = Normal requested ->
    match_ requested (I18n.locales registry) (I18n.defaultLocale registry)
    = Throw exception ->
    middleware languages match_ registry request
    = (Throw exception, [Negotiator_languages; localematcher_match]).
Proof.
  intros languages match_ registry request requested exception Hn Hl Hm.
  rewrite (middleware_negotiates languages match_ _ _ Hn).
  now rewrite (getLocale_throws _ _ _ _ _ _ Hl Hm).
Qed.

Lemma middleware_throws_without_accept_language :
  middleware (fun _ => Normal ["*"])
             (fun _ _ _ => Throw "RangeError: Incorrect locale information provided")
             demo_registry
             {| url := "http://localhost:3000/about";
                nextUrl := {| pathname := "/about"; search := "" |};
                headers := [("host", "localhost:3000")] |}
  = (Throw "RangeError: Incorrect locale information provided",
     [Negotiator_languages; localematcher_match]).
Proof.
  apply (middleware_throws_when_match_throws
           (fun _ => Normal ["*"])
           (fun _ _ _ => Throw "RangeError: Incorrect locale information provided")
           demo_registry
           {| url := "http://localhost:3000/about";
              nextUrl := {| pathname := "/about"; search := "" |};
              headers := [("host", "localhost:3000")] |}
           ["*"] "RangeError: Incorrect locale information provided").
  - apply pathnameIsMissingLocale_true. reflexivity.
  - reflexivity.
  - reflexivity.
Defined.

(** C6 (code defect): [getLocale] does not fall back to the default when
    [match] throws: the exception is its outcome, whatever the registry's
    default.  That is the case of an absent [Accept-Language] header, for
    which [languages()] returns [["*"]], and of a header such as
    ["en_US"]. *)
Theorem getLocale_propagates_exception :
  forall languages match_ registry request requested exception,
    languages (mapHeadersToObject (headers request)) = Normal requested ->
    match_ requested (I18n.locales registry) (I18n.defaultLocale registry)
    = Throw exception ->
    fst (getLocale languages match_ registry request) = Throw exception
    /\ fst (getLocale languages match_ registry request)
       <> Normal (I18n.defaultLocale registry).
Proof.
  intros languages match_ registry request requested exception Hl Hm.
  rewrite (getLocale_throws _ _ _ _ _ _ Hl Hm). now split.
Qed.

Lemma getLocale_throws_without_accept_language :
  fst (getLocale (fun _ => Normal ["*"])
                 (fun _ _ _ => Throw "RangeError: Incorrect locale information provided")
                 demo_registry
                 {| url := "http://localhost:3000/about";
                    nextUrl := {| pathname := "/about"; search := "" |};
                    headers := [("host", "localhost:3000")] |})
  = Throw "RangeError: Incorrect locale information provided".
Proof.
  apply (getLocale_propagates_exception
           (fun _ => Normal ["*"])
           (fun _ _ _ => Throw "RangeError: Incorrect locale information provided")
           demo_registry
           {| url := "http://localhost:3000/about";
              nextUrl := {| pathname := "/about"; search := "" |};
              headers := [("host", "localhost:3000")] |}
           ["*"] "RangeError: Incorrect locale information provided");
    reflexivity.
Defined.

(** C3, as stated, fails: an enumeration with an entry that already holds
    ["-"] is built without complaint, and so is the empty enumeration,
    which leaves a default that is not a member of the derived sequence. *)
Lemma construction_accepts_hyphen_entry :
  (exists entry, In entry ["en"; "pt-BR"] /\ occurrences hyphen entry <> 0)
  /\ I18n.build ["en"; "pt-BR"] = Some (I18n.mk ["en"; "pt-BR"] "en")
  /\ I18n.build [] = Some (I18n.mk [] "en")
  /\ ~ In "en" (I18n.locales (I18n.mk [] "en")).
Proof.
  split; [| split; [reflexivity | split; [reflexivity | intros []]]].
  exists "pt-BR". split; [right; now left | discriminate].
Qed.

(** C3 (amended): the build is rejected, by the type annotation of
    [defaultLocale] and so before any request, exactly when the
    enumeration has values and the default locale is not a member of the
    derived sequence.  A build that is accepted yields the derived
    sequence with the default ["en"], which is one of its members unless
    the enumeration is empty: the empty enumeration is accepted and gives
    a registry without locales.  Entries that already hold ["-"] are not
    checked. *)
Theorem registry_construction :
  forall HygraphLocaleEnum : list string,
    let registry := I18n.i18n HygraphLocaleEnum in
    match I18n.build HygraphLocaleEnum with
    | None =>
        HygraphLocaleEnum <> []
        /\ ~ In (I18n.defaultLocale registry) (I18n.locales registry)
    | Some built =>
        built = registry
        /\ (In (I18n.defaultLocale built) (I18n.locales built)
            <-> HygraphLocaleEnum <> [])
    end.
Proof.
  intros enum registry. unfold I18n.build.
  destruct (I18n.defaultLocale_typechecks enum) eqn:E.
  - apply (proj1 (defaultLocale_typechecks_iff enum)) in E.
    split; [reflexivity |]. simpl. split.
    + intros Hin ->. exact Hin.
    + intros Hne. destruct E as [-> | Hin]; [contradiction |].
      now apply (proj2 (In_locales_plain "en" eq_refl eq_refl enum)).
  - split.
    + intros ->. discriminate E.
    + intros Hin.
      apply (proj1 (In_locales_plain "en" eq_refl eq_refl enum)) in Hin.
      assert (I18n.defaultLocale_typechecks enum = true) as Ht
          by (apply defaultLocale_typechecks_iff; now right).
      congruence.
Qed.

(** C4: [hasLocalePrefix path registry] holds exactly when [path] starts
    with ["/<locale>/"] or equals ["/<locale>"] for a locale of the
    registry; with ["en"] registered, ["/en/about"] matches and
    ["/english/about"] does not. *)
Theorem hasLocalePrefix_correct :
  forall (path : string) (registry : I18n.t),
    (hasLocalePrefix path registry = true
     <-> exists locale,
          In locale (I18n.locales registry)
          /\ ((exists rest, path = "/" ++ locale ++ "/" ++ rest)
              \/ path = "/" ++ locale))
    /\ hasLocalePrefix "/en/about" demo_registry = true
    /\ hasLocalePrefix "/en" demo_registry = true
    /\ hasLocalePrefix "/english/about" demo_registry = false.
Proof.
  intros path registry. split; [apply hasLocalePrefix_iff |].
  repeat split.
Qed.

Import HygraphClient.

(** C7: a source-form identifier (no ["-"]) with at most one ["_"] is
    restored by converting it to standard form and back, and, the other way
    round, a standard-form identifier (no ["_"]) with at most one ["-"] is
    restored by converting it to source form and back. *)
Theorem conversion_round_trip :
  forall x y : string,
    occurrences hyphen x = 0 -> occurrences underscore x <= 1 ->
    occurrences underscore y = 0 -> occurrences hyphen y <= 1 ->
    toSource (I18n.toStandard x) = x /\ I18n.toStandard (toSource y) = y.
Proof.
  intros x y Hx _ Hy _. split.
  - exact (replace_char_round_trip underscore hyphen x Hx).
  - exact (replace_char_round_trip hyphen underscore y Hy).
Qed.

Lemma conversion_round_trip_witness :
  toSource (I18n.toStandard "pl_PL") = "pl_PL"
  /\ I18n.toStandard (toSource "pl-PL") = "pl-PL".
Proof.
  apply (conversion_round_trip "pl_PL" "pl-PL"); simpl; lia.
Defined.

(** C8: the query built for [inputLocale] carries, as its [locales]
    variable, the one-element list holding [inputLocale] with its ["-"]
    replaced by ["_"]; for a locale of the registry, derived from an enum
    value [hygraphLocale], that element is [hygraphLocale] again. *)
Theorem query_scopes_to_one_locale :
  forall (RequestInit : Type) (HYGRAPH_CONTENT_API_URL : string)
         (init : option RequestInit) (inputLocale : string),
    let query :=
      getBlogposts (useHygraphClient HYGRAPH_CONTENT_API_URL inputLocale) init in
    locales (variables query) = [JS.replace inputLocale "-" "_"]
    /\ List.length (locales (variables query)) = 1
    /\ (forall hygraphLocale,
           occurrences hyphen hygraphLocale = 0 ->
           inputLocale = I18n.toStandard hygraphLocale ->
           locales (variables query) = [hygraphLocale]).
Proof.
  intros RequestInit api init inputLocale query. repeat split.
  intros hygraphLocale Hh ->. unfold query; simpl. f_equal.
  exact (replace_char_round_trip underscore hyphen _ Hh).
Qed.

Lemma query_scopes_to_one_locale_witness :
  locales (variables
             (getBlogposts
                (useHygraphClient "https://api.hygraph.example/v2/content" "pl-PL")
                (@None unit)))
  = ["pl_PL"].
Proof.
  apply (query_scopes_to_one_locale unit "https://api.hygraph.example/v2/content"
                                    None "pl-PL");
    reflexivity.
Defined.




(** C10: each conversion replaces the first occurrence of its separator
    only, so one occurrence goes and the others stay: ["zh_Hant_TW"]
    becomes ["zh-Hant_TW"], which still holds an underscore, and the
    adapter turns ["zh-Hant-TW"] into ["zh_Hant-TW"], which still holds a
    hyphen. *)
Theorem conversion_replaces_first_separator_only :
  forall x : string,
    occurrences underscore (I18n.toStandard x) = pred (occurrences underscore x)
    /\ occurrences hyphen (toSource x) = pred (occurrences hyphen x)
    /\ I18n.toStandard "zh_Hant_TW" = "zh-Hant_TW"
    /\ occurrences underscore (I18n.toStandard "zh_Hant_TW") = 1
    /\ toSource "zh-Hant-TW" = "zh_Hant-TW"
    /\ occurrences hyphen (toSource "zh-Hant-TW") = 1.
Proof.
  intros x. split; [| split; [| repeat split]].
  - exact (replace_char_occurrences_pat underscore hyphen x underscore_neq_hyphen).
  - exact (replace_char_occurrences_pat hyphen underscore x hyphen_neq_underscore).
Qed.

(** * Further properties of the code *)

(** ** The headers object built by [mapHeadersToObject] *)

Section HeadersObjectFacts.

Lemma mapHeadersToObject_reduce (headers : list (string * string)) :
  mapHeadersToObject headers = fold_left spread_entry headers empty_object.
Proof. reflexivity. Qed.

(** Entries whose name is not [k] leave the property [k] as it was. *)
Lemma reduce_other_keys (hs : list (string * string)) :
  forall (object : HeadersObject) (k : string),
    ~ In k (map fst hs) -> fold_left spread_entry hs object k = object k.
Proof.
  induction hs as [|[k' v'] hs IH]; intros object k Hk; [reflexivity |].
  simpl in *. rewrite IH by tauto. unfold spread_entry, spread_set. simpl.
  destruct (String.eqb_spec k k') as [->|_]; [| reflexivity].
  exfalso. apply Hk. now left.
Qed.

(** A property that was set stays set. *)
Lemma reduce_keeps_defined (hs : list (string * string)) :
  forall (object : HeadersObject) (k : string),
    object k <> None -> fold_left spread_entry hs object k <> None.
Proof.
  induction hs as [|[k' v'] hs IH]; intros object k Hk; [exact Hk |].
  simpl. apply IH. unfold spread_entry, spread_set. simpl.
  destruct (String.eqb k k'); [discriminate | exact Hk].
Qed.

(** Whatever the reduction reads at [k] was there before or is the value
    of an entry named [k]. *)
Lemma reduce_value_origin (hs : list (string * string)) :
  forall (object : HeadersObject) (k v : string),
    fold_left spread_entry hs object k = Some v ->
    object k = Some v \/ In (k, v) hs.
Proof.
  induction hs as [|[k' v'] hs IH]; intros object k v H; [now left |].
  simpl in H. destruct (IH _ _ _ H) as [Ho | Hin]; [| right; now right].
  unfold spread_entry, spread_set in Ho. simpl in Ho.
  destruct (String.eqb_spec k k') as [->|_]; [| now left].
  injection Ho as ->. right. now left.
Qed.

(** The entry after which no entry is named [k] decides the property [k]. *)
Lemma reduce_last_entry (before after : list (string * string)) (k v : string) :
  ~ In k (map fst after) ->
  mapHeadersToObject (before ++ (k, v) :: after) k = Some v.
Proof.
  intros Hk. rewrite mapHeadersToObject_reduce, fold_left_app. simpl.
  rewrite reduce_other_keys by exact Hk.
  unfold spread_entry, spread_set. simpl. now rewrite String.eqb_refl.
Qed.

End HeadersObjectFacts.

(** X1: the own properties of the object are the header names: the
    object has an own property [k] if and only if some entry is named
    [k].  (What the object inherits from [Object.prototype], such as
    [constructor], is not an own property.) *)
Theorem mapHeadersToObject_own_properties :
  forall (headers : list (string * string)) (k : string),
    (exists v, mapHeadersToObject headers k = Some v)
    <-> In k (map fst headers).
Proof.
  intros headers k. rewrite mapHeadersToObject_reduce. split.
  - intros [v Hv].
    destruct (reduce_value_origin headers empty_object k v Hv)
      as [He | Hin]; [discriminate He |].
    apply in_map_iff. now exists (k, v).
  - intros Hin. apply in_map_iff in Hin. destruct Hin as [[k' v] [Hk Hin]].
    simpl in Hk. subst k'. apply in_split in Hin. destruct Hin as [h1 [h2 ->]].
    rewrite fold_left_app. simpl.
    destruct (fold_left spread_entry h2 (spread_entry (fold_left spread_entry h1 empty_object) (k, v)) k)
      as [w |] eqn:E; [now exists w |].
    exfalso. revert E. apply reduce_keeps_defined.
    unfold spread_entry, spread_set. simpl. now rewrite String.eqb_refl.
Qed.

(** X2: when a name occurs more than once, the last entry wins: the value
    read at [k] is that of the entry after which no entry is named [k]. *)
Theorem mapHeadersToObject_last_wins :
  forall (before after : list (string * string)) (k v : string),
    ~ In k (map fst after) ->
    mapHeadersToObject (before ++ (k, v) :: after) k = Some v.
Proof.
  intros before after k v Hk. now apply reduce_last_entry.
Qed.

Lemma mapHeadersToObject_last_wins_witness :
  mapHeadersToObject
    ([("accept-language", "fr")] ++ ("accept-language", "pl-PL") :: [("host", "localhost")])
    "accept-language"
  = Some "pl-PL".
Proof.
  apply (mapHeadersToObject_last_wins
           [("accept-language", "fr")] [("host", "localhost")]
           "accept-language" "pl-PL").
  simpl. intros [H | []]. discriminate H.
Defined.

(** X3: when the names are pairwise distinct, the object holds exactly the
    entries: reading [k] gives [v] if and only if [(k, v)] is an entry. *)
Theorem mapHeadersToObject_lookup :
  forall (headers : list (string * string)) (k v : string),
    NoDup (map fst headers) ->
    (mapHeadersToObject headers k = Some v <-> In (k, v) headers).
Proof.
  intros headers k v Hnd. split.
  - intros H. rewrite mapHeadersToObject_reduce in H.
    destruct (reduce_value_origin headers empty_object k v H)
      as [He | Hin]; [discriminate He | exact Hin].
  - intros Hin. apply in_split in Hin. destruct Hin as [h1 [h2 ->]].
    apply reduce_last_entry.
    rewrite map_app in Hnd. simpl in Hnd.
    apply NoDup_remove_2 in Hnd. intros Hin. apply Hnd, in_or_app. now right.
Qed.

Lemma mapHeadersToObject_lookup_witness :
  mapHeadersToObject [("host", "localhost"); ("accept-language", "pl-PL")]
                     "accept-language"
  = Some "pl-PL"
  <-> In ("accept-language", "pl-PL")
         [("host", "localhost"); ("accept-language", "pl-PL")].
Proof.
  apply (mapHeadersToObject_lookup
           [("host", "localhost"); ("accept-language", "pl-PL")]
           "accept-language" "pl-PL").
  simpl. repeat constructor; simpl; intuition discriminate.
Defined.

(** ** The casts [as Locale] and [as HygraphLocaleEnum] *)

Section FirstAgainstAll.

Variables c d : ascii.
Hypothesis c_neq_d : c <> d.

Lemma subst_all_removes (T : string) :
  occurrences c (subst_all c (String d "") T) = 0.
Proof.
  induction T as [|a T IH]; [reflexivity |]. simpl.
  destruct (Ascii.eqb_spec a c) as [->|Hac]; simpl.
  - destruct (Ascii.eqb_spec d c) as [->|_]; [contradiction | exact IH].
  - destruct (Ascii.eqb_spec a c); [contradiction | exact IH].
Qed.

(** Replacing the first occurrence is replacing all of them exactly when
    there is at most one. *)
Lemma replace_first_is_all (T : string) :
  JS.replace T (String c "") (String d "") = subst_all c (String d "") T
  <-> occurrences c T <= 1.
Proof.
  split.
  - intros H.
    pose proof (replace_char_occurrences_pat c d T c_neq_d) as Hp.
    rewrite H, subst_all_removes in Hp. lia.
  - induction T as [|a T IH]; intros Hle; [reflexivity |].
    rewrite replace_char_cons. simpl in *.
    destruct (Ascii.eqb a c).
    + rewrite subst_all_absent by lia. reflexivity.
    + now rewrite IH.
Qed.

End FirstAgainstAll.

Lemma toStandard_first_is_all (e : string) :
  I18n.toStandard e = I18n.Replace e "_" "-" <-> occurrences underscore e <= 1.
Proof.
  unfold I18n.toStandard.
  change (JS.replace e (String underscore "") (String hyphen "")
          = I18n.Replace e (String underscore "") (String hyphen "")
          <-> occurrences underscore e <= 1).
  rewrite Replace_spec.
  exact (replace_first_is_all underscore hyphen underscore_neq_hyphen e).
Qed.

(** X4: the value [hygraphLocale.replace("_", "-")] is the member of the
    type [Locale] that the cast [as Locale] gives it, namely
    [Replace<hygraphLocale, "_", "-">], exactly when [hygraphLocale] holds
    at most one underscore. *)
Theorem toStandard_agrees_with_Locale_type :
  forall hygraphLocale : string,
    I18n.toStandard hygraphLocale = I18n.Replace hygraphLocale "_" "-"
    <-> occurrences underscore hygraphLocale <= 1.
Proof. exact toStandard_first_is_all. Qed.

(** The conversion to standard form is one-to-one on identifiers that hold
    no hyphen. *)
Lemma toStandard_injective (x y : string) :
  occurrences hyphen x = 0 -> occurrences hyphen y = 0 ->
  I18n.toStandard x = I18n.toStandard y -> x = y.
Proof.
  intros Hx Hy H.
  pose proof (replace_char_round_trip underscore hyphen x Hx) as Rx.
  pose proof (replace_char_round_trip underscore hyphen y Hy) as Ry.
  change (JS.replace x (String underscore "") (String hyphen ""))
    with (I18n.toStandard x) in Rx.
  change (JS.replace y (String underscore "") (String hyphen ""))
    with (I18n.toStandard y) in Ry.
  rewrite H in Rx. congruence.
Qed.

(** X5: distinct enum values that hold no hyphen give distinct locales:
    the derived sequence has no duplicate when the enumeration has none. *)
Theorem locales_distinct :
  forall HygraphLocaleEnum : list string,
    (forall e, In e HygraphLocaleEnum -> occurrences hyphen e = 0) ->
    NoDup HygraphLocaleEnum ->
    NoDup (I18n.locales (I18n.i18n HygraphLocaleEnum)).
Proof.
  intros enum Hh Hnd. simpl.
  induction Hnd as [|e enum Hnotin Hnd IH]; simpl; constructor.
  - intros Hin. apply in_map_iff in Hin. destruct Hin as [e' [Heq Hin]].
    apply toStandard_injective in Heq.
    + subst e'. contradiction.
    + apply Hh. now right.
    + apply Hh. now left.
  - apply IH. intros e' Hin. apply Hh. now right.
Qed.

Lemma locales_distinct_witness :
  NoDup (I18n.locales (I18n.i18n ["en"; "pl_PL"])).
Proof.
  apply (locales_distinct ["en"; "pl_PL"]).
  - intros e [<- | [<- | []]]; reflexivity.
  - repeat constructor; simpl; intuition discriminate.
Defined.

(** X6: with an enumeration whose values hold no hyphen, the page called
    with the member of the type [Locale] that belongs to the enum value
    [e] asks the content source for a value of the enumeration exactly
    when [e] holds at most one underscore, and the value asked for is then
    [e] itself. *)
Theorem IndexPage_queries_enum_value :
  forall (RequestInit Blogposts : Type) (HYGRAPH_CONTENT_API_URL : string)
         (JSON_stringify : Blogposts -> string)
         (HygraphLocaleEnum : list string) (e : string),
    (forall e', In e' HygraphLocaleEnum -> occurrences hyphen e' = 0) ->
    In e HygraphLocaleEnum ->
    let lang := I18n.Replace e "_" "-" in
    let query :=
      Page.awaited (@Page.IndexPage RequestInit HYGRAPH_CONTENT_API_URL
                                    Blogposts JSON_stringify lang) in
    ((exists e', In e' HygraphLocaleEnum /\ locales (variables query) = [e'])
     <-> occurrences underscore e <= 1)
    /\ (occurrences underscore e <= 1 -> locales (variables query) = [e]).
Proof.
  intros RequestInit Blogposts api stringify enum e Hh Hin lang query.
  assert (Hq : locales (variables query) = [toSource lang]) by reflexivity.
  assert (Hback : occurrences underscore e <= 1 -> toSource lang = e).
  { intros Hle. unfold lang.
    rewrite <- (proj2 (toStandard_first_is_all e) Hle).
    exact (replace_char_round_trip underscore hyphen e (Hh e Hin)). }
  split; [split |].
  - intros [e' [Hin' He']]. rewrite Hq in He'. injection He' as He'.
    pose proof (Hh e' Hin') as Hzero. rewrite <- He' in Hzero.
    unfold toSource in Hzero.
    change (occurrences hyphen
              (JS.replace lang (String hyphen "") (String underscore "")) = 0)
      in Hzero.
    rewrite (replace_char_occurrences_pat hyphen underscore lang
               hyphen_neq_underscore) in Hzero.
    unfold lang in Hzero.
    change (I18n.Replace e "_" "-")
      with (I18n.Replace e (String underscore "") (String hyphen "")) in Hzero.
    rewrite Replace_spec in Hzero.
    rewrite (subst_all_char_occurrences underscore hyphen e
               underscore_neq_hyphen) in Hzero.
    lia.
  - intros Hle. exists e. split; [exact Hin |]. now rewrite Hq, Hback.
  - intros Hle. now rewrite Hq, Hback.
Qed.

Lemma IndexPage_queries_enum_value_witness :
  locales (variables
             (Page.awaited
                (@Page.IndexPage unit "https://api.hygraph.example/v2/content"
                                 unit (fun _ => "[]")
                                 (I18n.Replace "pl_PL" "_" "-"))))
  = ["pl_PL"].
Proof.
  refine (proj2 (IndexPage_queries_enum_value
                   unit unit "https://api.hygraph.example/v2/content"
                   (fun _ => "[]") ["en"; "pl_PL"] "pl_PL" _ _) _).
  - intros e [<- | [<- | []]]; reflexivity.
  - right. now left.
  - simpl. lia.
Defined.

(** ** The first segment of a path *)

Section Segments.

Lemma segment_eq (a b r1 r2 : string) :
  occurrences slash a = 0 -> occurrences slash b = 0 ->
  a ++ "/" ++ r1 = b ++ "/" ++ r2 -> a = b.
Proof.
  revert b; induction a as [|x a IH]; intros [|y b] Ha Hb H; simpl in *.
  - reflexivity.
  - injection H as <- _. discriminate Hb.
  - injection H as -> _. discriminate Ha.
  - injection H as -> H.
    destruct (Ascii.eqb y slash); [discriminate |].
    f_equal. now apply IH.
Qed.

Lemma segment_not_longer (a b r : string) :
  occurrences slash b = 0 -> a ++ "/" ++ r <> b.
Proof.
  intros Hb H. rewrite <- H, occurrences_append in Hb. simpl in Hb. lia.
Qed.

Variable registry : I18n.t.
Hypothesis locales_slash_free :
  forall locale, In locale (I18n.locales registry) -> occurrences slash locale = 0.

Lemma carries_locale_segment (seg rest : string) :
  occurrences slash seg = 0 ->
  (carries_locale registry ("/" ++ seg ++ "/" ++ rest)
   <-> In seg (I18n.locales registry)).
Proof.
  intros Hseg. split.
  - intros [l [Hin [[r H] | H]]]; injection H as H.
    + apply segment_eq in H; auto. now subst.
    + exfalso. revert H. apply segment_not_longer. auto.
  - intros Hin. exists seg. split; [exact Hin |]. left. now exists rest.
Qed.

Lemma carries_locale_bare_segment (seg : string) :
  occurrences slash seg = 0 ->
  (carries_locale registry ("/" ++ seg) <-> In seg (I18n.locales registry)).
Proof.
  intros Hseg. split.
  - intros [l [Hin [[r H] | H]]]; injection H as H.
    + exfalso. symmetry in H. revert H. now apply segment_not_longer.
    + now subst.
  - intros Hin. exists seg. split; [exact Hin | now right].
Qed.

End Segments.

(** X7: when no registered locale holds a ["/"], the test looks at the
    first segment of the path and at nothing else: a path ["/<seg>/..."] or
    ["/<seg>"] has a locale prefix if and only if [seg] itself is a
    registered locale. *)
Theorem hasLocalePrefix_first_segment :
  forall (registry : I18n.t) (seg rest : string),
    (forall locale, In locale (I18n.locales registry) ->
                    occurrences slash locale = 0) ->
    occurrences slash seg = 0 ->
    (hasLocalePrefix ("/" ++ seg ++ "/" ++ rest) registry = true
     <-> In seg (I18n.locales registry))
    /\ (hasLocalePrefix ("/" ++ seg) registry = true
        <-> In seg (I18n.locales registry)).
Proof.
  intros registry seg rest Hreg Hseg. rewrite !hasLocalePrefix_iff. split.
  - now apply carries_locale_segment.
  - now apply carries_locale_bare_segment.
Qed.

Lemma hasLocalePrefix_first_segment_witness :
  (hasLocalePrefix ("/" ++ "english" ++ "/" ++ "about") demo_registry = true
   <-> In "english" (I18n.locales demo_registry))
  /\ (hasLocalePrefix ("/" ++ "english") demo_registry = true
      <-> In "english" (I18n.locales demo_registry)).
Proof.
  apply (hasLocalePrefix_first_segment demo_registry "english" "about").
  - intros locale [<- | [<- | []]]; reflexivity.
  - reflexivity.
Defined.

(** X8: when negotiation returns a locale that is not registered (the
    default of a registry that does not list it, say), the redirect does
    not settle: the reference built for the request lacks a registered
    segment in its turn, so a request for it does not pass through.
    Negotiation runs again, and unless it throws the request is redirected
    once more, with one more locale segment in front. *)
Theorem unregistered_locale_redirects_again :
  forall languages match_ (registry : I18n.t) request location log locale,
    (forall l, In l (I18n.locales registry) -> occurrences slash l = 0) ->
    middleware languages match_ registry request
    = (Normal (Some (redirect location)), log) ->
    fst (getLocale languages match_ registry request) = Normal locale ->
    occurrences slash locale = 0 ->
    ~ In locale (I18n.locales registry) ->
    forall request',
      pathname (nextUrl request') = input location ->
      input location = "/" ++ locale ++ "/" ++ pathname (nextUrl request)
      /\ middleware languages match_ registry request'
         = (match fst (getLocale languages match_ registry request') with
            | Normal locale' =>
                Normal (Some (redirect
                                (new_URL
                                   ("/" ++ locale' ++ "/" ++ input location)
                                   (url request'))))
            | Throw exception => Throw exception
            end,
            snd (getLocale languages match_ registry request')).
Proof.
  intros languages match_ registry request location log locale Hreg Hmw Hl
         Hslash Hnotin request' Hpath.
  apply middleware_redirect_inv in Hmw.
  destruct Hmw as [_ [locale0 [Hl0 ->]]].
  rewrite Hl in Hl0. injection Hl0 as <-. simpl in *.
  split; [reflexivity |].
  rewrite <- Hpath. apply middleware_negotiates. rewrite Hpath.
  intros Hc. apply Hnotin.
  apply (carries_locale_segment registry Hreg locale
                                (pathname (nextUrl request)) Hslash).
  exact Hc.
Qed.

Lemma unregistered_locale_redirects_again_witness :
  middleware (fun _ => Normal ["fr"]) (fun _ _ default => Normal default)
             (I18n.i18n ["pl_PL"])
             {| url := "http://localhost:3000/en//about";
                nextUrl := {| pathname := "/en//about"; search := "" |};
                headers := [("accept-language", "fr")] |}
  = (Normal (Some (redirect (new_URL "/en//en//about"
                                     "http://localhost:3000/en//about"))),
     [Negotiator_languages; localematcher_match]).
Proof.
  refine (proj2 (unregistered_locale_redirects_again
                   (fun _ => Normal ["fr"]) (fun _ _ default => Normal default)
                   (I18n.i18n ["pl_PL"])
                   {| url := "http://localhost:3000/about";
                      nextUrl := {| pathname := "/about"; search := "" |};
                      headers := [("accept-language", "fr")] |}
                   (new_URL "/en//about" "http://localhost:3000/about")
                   [Negotiator_languages; localematcher_match]
                   "en"
                   _ _ _ _ _
                   {| url := "http://localhost:3000/en//about";
                      nextUrl := {| pathname := "/en//about"; search := "" |};
                      headers := [("accept-language", "fr")] |} _)).
  - intros l [<- | []]. reflexivity.
  - reflexivity.
  - reflexivity.
  - reflexivity.
  - simpl. intros [H | []]. discriminate H.
  - reflexivity.
Defined.

(** ** The members of the type [Locale] *)

Lemma subst_all_char_length (c d : ascii) (T : string) :
  String.length (subst_all c (String d "") T) = String.length T.
Proof.
  induction T as [|a T IH]; [reflexivity |]. simpl.
  destruct (Ascii.eqb a c); simpl; now rewrite IH.
Qed.

(** X9: the type-level [Replace<T, "_", "-">] reaches its base case and
    replaces every underscore: the member of [Locale] it gives holds no
    underscore, holds one hyphen for each hyphen and each underscore of
    [T], and is as long as [T]. *)
Theorem Locale_member_has_no_underscore :
  forall T : string,
    occurrences underscore (I18n.Replace T "_" "-") = 0
    /\ occurrences hyphen (I18n.Replace T "_" "-")
       = occurrences hyphen T + occurrences underscore T
    /\ String.length (I18n.Replace T "_" "-") = String.length T.
Proof.
  intros T.
  change (I18n.Replace T "_" "-")
    with (I18n.Replace T (String underscore "") (String hyphen "")).
  rewrite Replace_spec. split; [| split].
  - exact (subst_all_removes underscore hyphen underscore_neq_hyphen T).
  - exact (subst_all_char_occurrences underscore hyphen T underscore_neq_hyphen).
  - apply subst_all_char_length.
Qed.

(** ** The outcomes of [middleware] *)

(** X10: [middleware] ends in one of four ways.  When the pathname carries
    a registered locale segment the request passes through and no library
    is called.  Otherwise negotiation runs, on the object that holds for
    each header name the value of its last entry: if [languages()] throws,
    or [match] throws, the exception leaves [middleware]; if negotiation
    returns a locale, the answer is the redirect to the reference made of
    ["/<locale>"], at most one further ["/"], and the pathname.  So a
    redirect is issued exactly when the pathname carries no registered
    segment and negotiation returns. *)
Theorem middleware_outcomes :
  forall languages match_ registry request,
    let path := pathname (nextUrl request) in
    let result := middleware languages match_ registry request in
    exists headersObject : HeadersObject,
      (forall k, headersObject k = last_value (headers request) k)
      /\ ((exists location, fst result = Normal (Some (redirect location)))
          <-> ~ carries_locale registry path
              /\ exists requested locale,
                  languages headersObject = Normal requested
                  /\ match_ requested (I18n.locales registry)
                            (I18n.defaultLocale registry)
                     = Normal locale)
      /\ ((carries_locale registry path /\ result = (Normal None, []))
          \/ (~ carries_locale registry path
              /\ exists exception,
                  languages headersObject = Throw exception
                  /\ result = (Throw exception, [Negotiator_languages]))
          \/ (~ carries_locale registry path
              /\ exists requested exception,
                  languages headersObject = Normal requested
                  /\ match_ requested (I18n.locales registry)
                            (I18n.defaultLocale registry)
                     = Throw exception
                  /\ result = (Throw exception,
                               [Negotiator_languages; localematcher_match]))
          \/ (~ carries_locale registry path
              /\ exists requested locale sep,
                  languages headersObject = Normal requested
                  /\ match_ requested (I18n.locales registry)
                            (I18n.defaultLocale registry)
                     = Normal locale
                  /\ (sep = "" \/ sep = "/")
                  /\ result
                     = (Normal (Some (redirect
                                        (new_URL ("/" ++ locale ++ sep ++ path)
                                                 (url request)))),
                        [Negotiator_languages; localematcher_match]))).
Proof.
  intros languages match_ registry request path result.
  exists (mapHeadersToObject (headers request)).
  split; [apply mapHeadersToObject_last_value |].
  destruct (carries_locale_dec registry path) as [Hc | Hn].
  - pose proof (middleware_pass_through languages match_ _ _ Hc) as Hr.
    fold result in Hr. split.
    + rewrite Hr. split; [intros [? [=]] | intros [? _]; contradiction].
    + left. now split.
  - pose proof (middleware_negotiates languages match_ _ _ Hn) as Hr.
    fold result path in Hr. rewrite getLocale_run in Hr.
    destruct (languages (mapHeadersToObject (headers request)))
      as [requested | e]; simpl in Hr.
    + destruct (match_ requested (I18n.locales registry)
                       (I18n.defaultLocale registry)) as [locale | e] eqn:Em.
      * split.
        -- rewrite Hr. split.
           ++ intros _. split; [exact Hn |]. now exists requested, locale.
           ++ intros _. eexists. reflexivity.
        -- right. right. right. split; [exact Hn |].
           exists requested, locale, "/". repeat split; auto.
      * split.
        -- rewrite Hr. split.
           ++ intros [? [=]].
           ++ intros [_ [r [l [Hl Hm]]]]. injection Hl as <-.
              rewrite Em in Hm. discriminate.
        -- right. right. left. split; [exact Hn |].
           now exists requested, e.
    + split.
      * rewrite Hr. split.
        -- intros [? [=]].
        -- intros [_ [r [l [Hl _]]]]. discriminate.
      * right. left. split; [exact Hn |]. now exists e.
Qed.
